(** * cat.structures: the deck of black and white cards

    A shallow embedding of [src/cat/structures.py] (class [Deck]) and the
    properties of its card pools.

    Python sets are finite sets ([gset]); [set.pop()] removes an arbitrary
    element, so every operation that pops is modelled by the list of all its
    possible outcomes (a state, exception and choice monad).  Cards are
    hashable Python values other than [None]; what the code uses of them is
    equality, hashing and truth value. *)

From Stdlib Require Import ZArith.
From stdpp Require Import base decidable option list sets gmap strings.

#[local] Set Warnings "-clear-no-such-hyp".

Module structures.

(** ** Python's truth protocol: [bool(x)] *)

Class Truth (A : Type) := truth : A → bool.
Global Hint Mode Truth ! : typeclass_instances.

(** [None] is false, any other value follows its own protocol. *)
Global Instance option_truth `{Truth A} : Truth (option A) :=
  λ o, match o with Some a => truth a | None => false end.

(** A set is true when it has an element. *)
Global Instance gset_truth `{Countable A} : Truth (gset A) :=
  λ s, negb (bool_decide (s = ∅)).

(** A [str] is true when it is not empty. *)
Global Instance string_truth : Truth string :=
  λ s, match s with EmptyString => false | String _ _ => true end.

(** ** Exceptions and outcomes *)

Section exceptions.
Context {card : Type}.

(** The argument a [KeyError] is raised with: by [set.pop()] on an empty
    set, by [set.remove(c)] of a missing [c], and by [discard], which
    formats ['{!r} not found in play'] with the card. *)
Inductive key_error_arg :=
  | pop_from_an_empty_set
  | missing_key (c : card)
  | not_found_in_play (c : card).

Inductive exception :=
  | KeyError (a : key_error_arg)
  | StopIteration
  | RuntimeError_generator_raised_StopIteration.

Inductive result (A : Type) :=
  | Return (a : A)
  | Raise (e : exception).
End exceptions.
Global Arguments key_error_arg : clear implicits.
Global Arguments exception : clear implicits.
Global Arguments result : clear implicits.
Global Arguments Return {card A} a.
Global Arguments Raise {card A} e.

(** ** The monad of the methods: state [St], exceptions, arbitrary choice *)

Definition M (card St A : Type) : Type := St → list (result card A * St).

Section monad.
Context {card St : Type}.

Definition ret {A} (a : A) : M card St A := λ s, [(Return a, s)].

Definition raise {A} (e : exception card) : M card St A := λ s, [(Raise e, s)].

Definition bind {A B} (m : M card St A) (f : A → M card St B) : M card St B :=
  λ s, '(r, s1) ← m s;
       match r with
       | Return a => f a s1
       | Raise e => [(Raise e, s1)]
       end.

Definition get : M card St St := λ s, [(Return s, s)].
Definition modify (f : St → St) : M card St unit := λ s, [(Return (), f s)].

(** [try: m except KeyError: h else: k] *)
Definition try_except_KeyError {A B} (m : M card St A)
    (h : M card St B) (k : A → M card St B) : M card St B :=
  λ s, '(r, s1) ← m s;
       match r with
       | Return a => k a s1
       | Raise (KeyError _) => h s1
       | Raise e => [(Raise e, s1)]
       end.

(** [{m for i in range(n)}] *)
Fixpoint set_comprehension `{Countable A} (n : nat) (m : M card St A)
    : M card St (gset A) :=
  match n with
  | O => ret ∅
  | S n' => bind m (λ a, bind (set_comprehension n' m) (λ acc, ret ({[a]} ∪ acc)))
  end.

(** [for x in xs: body x] *)
Fixpoint for_in {A} (xs : list A) (body : A → M card St unit) : M card St unit :=
  match xs with
  | [] => ret ()
  | x :: xs' => bind (body x) (λ _, for_in xs' body)
  end.

(** A computation is total when it has an outcome from every state. *)
Definition total {A} (m : M card St A) : Prop := ∀ s, m s ≠ [].
End monad.

Declare Scope py_scope.
Delimit Scope py_scope with py.
Notation "x <- m ;; k" := (bind m (λ x, k))
  (at level 100, m at next level, right associativity) : py_scope.
Notation "m ;;; k" := (bind m (λ _, k))
  (at level 100, right associativity) : py_scope.

(** ** Built-in set methods *)

Section sets.
Context `{Countable card}.

(** [s.pop()]: removes and returns an arbitrary element, [KeyError] on the
    empty set. *)
Definition set_pop : M card (gset card) card :=
  λ s, match elements s with
       | [] => [(Raise (KeyError pop_from_an_empty_set), s)]
       | cs => (λ c, (Return c, s ∖ {[c]})) <$> cs
       end.

(** [s.remove(x)]: [KeyError(x)] when [x] is not a member. *)
Definition set_remove (x : card) : M card (gset card) unit :=
  λ s, if decide (x ∈ s) then [(Return (), s ∖ {[x]})]
       else [(Raise (KeyError (missing_key x)), s)].
End sets.

(** ** The deck *)

Section deck.
Context `{Countable card} `{!Truth card}.

(** The slots of a [Deck].  [current] is [None] or a card. *)
Record Deck := {
  _black : gset card;
  _white : gset card;
  black : gset card;
  current : option card;
  discarded : gset card;
  in_play : gset card;
  white : gset card;
  won : gset card
}.

Definition set_black (s : gset card) (d : Deck) : Deck :=
  {| _black := _black d; _white := _white d; black := s; current := current d;
     discarded := discarded d; in_play := in_play d; white := white d; won := won d |}.
Definition set_current (c : option card) (d : Deck) : Deck :=
  {| _black := _black d; _white := _white d; black := black d; current := c;
     discarded := discarded d; in_play := in_play d; white := white d; won := won d |}.
Definition set_discarded (s : gset card) (d : Deck) : Deck :=
  {| _black := _black d; _white := _white d; black := black d; current := current d;
     discarded := s; in_play := in_play d; white := white d; won := won d |}.
Definition set_in_play (s : gset card) (d : Deck) : Deck :=
  {| _black := _black d; _white := _white d; black := black d; current := current d;
     discarded := discarded d; in_play := s; white := white d; won := won d |}.
Definition set_white (s : gset card) (d : Deck) : Deck :=
  {| _black := _black d; _white := _white d; black := black d; current := current d;
     discarded := discarded d; in_play := in_play d; white := s; won := won d |}.
Definition set_won (s : gset card) (d : Deck) : Deck :=
  {| _black := _black d; _white := _white d; black := black d; current := current d;
     discarded := discarded d; in_play := in_play d; white := white d; won := s |}.

(** A method of the set held in a slot, run on the deck: [self.white.pop()]. *)
Definition on_slot {A} (proj : Deck → gset card) (upd : gset card → Deck → Deck)
    (m : M card (gset card) A) : M card Deck A :=
  λ d, (λ '(r, s), (r, upd s d)) <$> m (proj d).

(** [Deck.reshuffle]: it cannot fail and has one outcome. *)
Definition reshuffle (d : Deck) : Deck :=
  {| _black := _black d; _white := _white d;
     black := _black d;
     white := _white d;
     current := None;
     discarded := ∅;
     in_play := ∅;
     won := ∅ |}.

(** [Deck.__init__]: [set(black)], [set(white)], then [reshuffle]; the slots
    that [reshuffle] assigns have no value before it. *)
Definition __init__ (black white : list card) : Deck :=
  reshuffle {| _black := list_to_set black; _white := list_to_set white;
               black := ∅; white := ∅; current := None;
               discarded := ∅; in_play := ∅; won := ∅ |}.

(** [Deck.discard], called with the tuple [cards]: first the body of its
    loop, for one card. *)
Definition discard_card (c : card) : M card Deck unit :=
  try_except_KeyError
    (on_slot in_play set_in_play (set_remove c))
    (raise (KeyError (not_found_in_play c)))
    (λ _, modify (λ d, set_discarded (discarded d ∪ {[c]}) d)).

Definition discard (cards : list card) : M card Deck unit :=
  for_in cards discard_card.

(** [Deck.draw(n)]; [range(n)] is empty for [n <= 0]. *)
Definition draw (n : Z) : M card Deck (gset card) :=
  (drawn <- set_comprehension (Z.to_nat n) (on_slot white set_white set_pop) ;;
   modify (λ d, set_in_play (in_play d ∪ drawn) d) ;;;
   ret drawn)%py.

(** [Deck.new()]: [if self.current:] is the truth value of the slot. *)
Definition new : M card Deck card :=
  (d <- get ;;
   match current d with
   | Some c => if truth c then modify (set_won (won d ∪ {[c]})) else ret ()
   | None => ret ()
   end ;;;
   c <- on_slot black set_black set_pop ;;
   modify (set_current (Some c)) ;;;
   ret c)%py.

(** [Deck.__bool__]: [bool(self.black or (self.current and self.in_play))] *)
Definition __bool__ (d : Deck) : bool :=
  truth (black d) || (truth (current d) && truth (in_play d)).

(** The [won] set once the guard of [new] has run: the current card is in
    it when the slot was true. *)
Definition won_after_guard (d : Deck) : gset card :=
  match current d with
  | Some c => if truth c then won d ∪ {[c]} else won d
  | None => won d
  end.

End deck.
Global Arguments Deck card {_ _}.

(** ** The generator of [Deck.__next__] *)

Section rounds.
Context `{Countable card} `{!Truth card}.

(** The body of [__next__] has one [yield], inside its loop: a generator that
    was just created and one suspended at the [yield] both resume at the test
    of the [while]. *)
Inductive gen_state := gen_open | gen_closed.

(** [Deck.__next__]: calling a generator function runs none of its body. *)
Definition __next__ (d : Deck card) : gen_state := gen_open.

(** [Deck.__iter__]: [next(self)] is [self.__next__()], the generator. *)
Definition __iter__ (d : Deck card) : gen_state := __next__ d.

(** What [raise StopIteration] in the body of a generator turns into.
    [generator_stop] is the switch of PEP 479: on from Python 3.7, and before
    that only under [from __future__ import generator_stop], which this
    module does not have. *)
Definition raise_StopIteration_in_generator (generator_stop : bool)
    : exception card :=
  if generator_stop then RuntimeError_generator_raised_StopIteration
  else StopIteration.

(** One [next()] of the generator: run the body up to its next [yield].  The
    state is the generator together with the deck it works on. *)
Definition generator_next (generator_stop : bool)
    : M card (gen_state * Deck card) card :=
  λ '(g, d),
    match g with
    | gen_closed => [(Raise StopIteration, (gen_closed, d))]
    | gen_open =>
        if truth (black d)
        then (λ '(r, d1),
                match r with
                | Return c => (Return c, (gen_open, d1))
                | Raise e => (Raise e, (gen_closed, d1))
                end) <$> new d
        else [(Raise (raise_StopIteration_in_generator generator_stop),
               (gen_closed, d))]
    end.

(** [for card in deck: pass], bounded by [fuel] turns of the loop.  An
    outcome tells how the loop went: the cards it was given, the exception
    that ended it ([None] when it ended normally, on [StopIteration]), and
    the deck it left; the outcome [None] is a loop that is not over when the
    fuel is. *)
Fixpoint for_card_in (fuel : nat) (generator_stop : bool) (g : gen_state)
    (d : Deck card)
    : list (option (list card * option (exception card) * Deck card)) :=
  match fuel with
  | O => [None]
  | S fuel' =>
      '(r, (g1, d1)) ← generator_next generator_stop (g, d);
      match r with
      | Return c =>
          fmap (M := option) (λ '(cs, e, d'), (c :: cs, e, d')) <$>
            for_card_in fuel' generator_stop g1 d1
      | Raise StopIteration => [Some ([], None, d1)]
      | Raise e => [Some ([], Some e, d1)]
      end
  end.

(** ** Sequences of calls *)

Inductive call :=
  | Reshuffle
  | DrawWhite (n : Z)
  | Discard (cards : list card)
  | AdvanceBlackCard.

Definition perform (o : call) : M card (Deck card) unit :=
  match o with
  | Reshuffle => modify reshuffle
  | DrawWhite n => bind (draw n) (λ _, ret ())
  | Discard cards => discard cards
  | AdvanceBlackCard => bind new (λ _, ret ())
  end.

(** The caller goes on after a call that raised:
    [try: m except Exception: pass]. *)
Definition suppress {A} (m : M card (Deck card) A) : M card (Deck card) unit :=
  λ d, (λ '(_, d1), (Return (), d1)) <$> m d.

(** [d'] is a state after the calls [ops] on [d], all of which returned. *)
Definition after_successful (ops : list call) (d d' : Deck card) : Prop :=
  (Return (), d') ∈ for_in ops perform d.

(** [d'] is a state after the calls [ops] on [d], returning or raising. *)
Definition after_calls (ops : list call) (d d' : Deck card) : Prop :=
  (Return (), d') ∈ for_in ops (λ o, suppress (perform o)) d.

(** [d'] has the master sets of [d]. *)
Definition same_masters (d d' : Deck card) : Prop :=
  _black d' = _black d ∧ _white d' = _white d.

(** ** The partitions of the cards *)

(** The current black card as a set: empty when the slot holds [None]. *)
Definition current_card (d : Deck card) : gset card :=
  match current d with
  | Some c => {[c]}
  | None => ∅
  end.

Definition black_partition (d : Deck card) : Prop :=
  black d ∪ current_card d ∪ won d = _black d ∧
  black d ## current_card d ∧ black d ## won d ∧ current_card d ## won d.

Definition white_partition (d : Deck card) : Prop :=
  white d ∪ in_play d ∪ discarded d = _white d ∧
  white d ## in_play d ∧ white d ## discarded d ∧ in_play d ## discarded d.

#[global] Instance black_partition_dec d : Decision (black_partition d).
Proof. unfold black_partition. apply _. Defined.

#[global] Instance white_partition_dec d : Decision (white_partition d).
Proof. unfold white_partition. apply _. Defined.

(** No card that can become current is false. *)
Definition black_cards_true (d : Deck card) : Prop :=
  ∀ c, c ∈ _black d → truth c = true.

End rounds.
Global Arguments gen_state : clear implicits.
Global Arguments call : clear implicits.

(** ** Comparing outcomes *)

Section decidable_equality.
Context `{Countable card}.

#[global] Instance key_error_arg_eq_dec : EqDecision (key_error_arg card).
Proof. solve_decision. Defined.

#[global] Instance exception_eq_dec : EqDecision (exception card).
Proof. solve_decision. Defined.

#[global] Instance result_eq_dec `{EqDecision A} : EqDecision (result card A).
Proof. solve_decision. Defined.

#[global] Instance Deck_eq_dec : EqDecision (Deck card).
Proof. solve_decision. Defined.

#[global] Instance after_successful_dec `{!Truth card} ops (d d' : Deck card) :
  Decision (after_successful ops d d').
Proof. unfold after_successful. apply _. Defined.

#[global] Instance after_calls_dec `{!Truth card} ops (d d' : Deck card) :
  Decision (after_calls ops d d').
Proof. unfold after_calls. apply _. Defined.

End decidable_equality.

(** ** Decks of text cards *)

Section text_cards.
Open Scope string_scope.

(** The deck of the scenarios: two prompts, three answers. *)
Definition scenario_deck : Deck string :=
  __init__ ["Q1"; "Q2"] ["A1"; "A2"; "A3"].

(** The scenario after [new()] gave "Q1" and [draw(2)] gave "A2" and "A3". *)
Definition scenario_round : Deck string :=
  set_in_play {["A2"; "A3"]}
    (set_white {["A1"]}
       (set_current (Some "Q1") (set_black {["Q2"]} scenario_deck))).

(** A deck one of whose prompts is the empty text, as a file of prompts with
    an empty line gives. *)
Definition blank_deck : Deck string := __init__ [EmptyString; "Q"] ["A"].

(** [blank_deck] after a [new()] that took the empty prompt. *)
Definition blank_current : Deck string :=
  set_current (Some EmptyString) (set_black {["Q"]} blank_deck).

(** [blank_deck] after a second [new()]. *)
Definition blank_dropped : Deck string :=
  set_current (Some "Q") (set_black ∅ blank_deck).

(** A deck whose only prompt is the empty text, after [new()] and
    [draw(1)]. *)
Definition blank_in_play : Deck string :=
  set_in_play {["A"]}
    (set_white ∅
       (set_current (Some EmptyString)
          (set_black ∅ (__init__ [EmptyString] ["A"])))).

End text_cards.

(** ** States that the properties of [discard] speak of *)

Section discarding.
Context `{Countable card}.

(** The deck with the cards [s] taken out of play and put with the discarded
    ones. *)
Definition move_to_discarded (s : gset card) (d : Deck card) : Deck card :=
  set_discarded (discarded d ∪ s) (set_in_play (in_play d ∖ s) d).

End discarding.

(** ** Outcomes of the monad's operations *)

Section monad_lemmas.
Context {card St : Type}.
Implicit Types (s : St) (e : exception card).

Lemma elem_of_ret {A} (a : A) s (x : result card A * St) :
  x ∈ ret a s ↔ x = (Return a, s).
Proof. unfold ret. apply list_elem_of_singleton. Qed.

Lemma elem_of_raise {A} e s (x : result card A * St) :
  x ∈ raise e s ↔ x = (Raise e, s).
Proof. unfold raise. apply list_elem_of_singleton. Qed.

Lemma elem_of_get s (x : result card St * St) :
  x ∈ get s ↔ x = (Return s, s).
Proof. unfold get. apply list_elem_of_singleton. Qed.

Lemma elem_of_modify (f : St → St) s (x : result card unit * St) :
  x ∈ modify f s ↔ x = (Return (), f s).
Proof. unfold modify. apply list_elem_of_singleton. Qed.

Lemma elem_of_bind {A B} (m : M card St A) (f : A → M card St B) s x :
  x ∈ bind m f s ↔
  ∃ r1 s1, (r1, s1) ∈ m s ∧
    match r1 with
    | Return a => x ∈ f a s1
    | Raise e => x = (Raise e, s1)
    end.
Proof.
  unfold bind. rewrite list_elem_of_bind. split.
  - intros [[r1 s1] [Hx Hm]]. exists r1, s1. split; [done|].
    destruct r1; [done|]. by apply list_elem_of_singleton.
  - intros (r1 & s1 & Hm & Hx). exists (r1, s1). split; [|done].
    destruct r1; [done|]. by apply list_elem_of_singleton.
Qed.

Lemma elem_of_try_except_KeyError {A B} (m : M card St A) (h : M card St B)
    (k : A → M card St B) s x :
  x ∈ try_except_KeyError m h k s ↔
  ∃ r1 s1, (r1, s1) ∈ m s ∧
    match r1 with
    | Return a => x ∈ k a s1
    | Raise (KeyError _) => x ∈ h s1
    | Raise e => x = (Raise e, s1)
    end.
Proof.
  unfold try_except_KeyError. rewrite list_elem_of_bind. split.
  - intros [[r1 s1] [Hx Hm]]. exists r1, s1. split; [done|].
    destruct r1 as [a|[]]; try done; by apply list_elem_of_singleton.
  - intros (r1 & s1 & Hm & Hx). exists (r1, s1). split; [|done].
    destruct r1 as [a|[]]; try done; by apply list_elem_of_singleton.
Qed.

Lemma total_ret {A} (a : A) : total (card := card) (St := St) (ret a).
Proof. by intros s. Qed.

Lemma total_modify (f : St → St) : total (card := card) (modify f).
Proof. by intros s. Qed.

Lemma total_bind {A B} (m : M card St A) (f : A → M card St B) :
  total m → (∀ a, total (f a)) → total (bind m f).
Proof.
  intros Hm Hf s. specialize (Hm s).
  destruct (m s) as [|[r1 s1] l] eqn:E; [done|].
  unfold bind. rewrite E. simpl.
  destruct r1 as [a|e]; [|done].
  specialize (Hf a s1). destruct (f a s1); [done|]. done.
Qed.

End monad_lemmas.

Section set_lemmas.
Context `{Countable card}.
Implicit Types (s : gset card) (c : card).

Lemma elem_of_set_pop s (x : result card card * gset card) :
  x ∈ set_pop s ↔
  (s = ∅ ∧ x = (Raise (KeyError pop_from_an_empty_set), ∅)) ∨
  (∃ c, c ∈ s ∧ x = (Return c, s ∖ {[c]})).
Proof.
  unfold set_pop. destruct (elements s) as [|c0 cs] eqn:E.
  - apply elements_empty_inv in E. apply leibniz_equiv in E. subst s.
    rewrite list_elem_of_singleton. split; [by left|].
    intros [[_ ->]|(c & Hc & _)]; [done|set_solver].
  - rewrite <- E. rewrite list_elem_of_fmap. split.
    + intros (c & -> & Hc). right. exists c. by rewrite <- elem_of_elements.
    + intros [[-> _]|(c & Hc & ->)].
      * by rewrite elements_empty in E.
      * exists c. by rewrite elem_of_elements.
Qed.

Lemma total_set_pop : total (set_pop (card := card)).
Proof.
  intros s. unfold set_pop. by destruct (elements s).
Qed.

Lemma elem_of_set_remove c s (x : result card unit * gset card) :
  x ∈ set_remove c s ↔
  (c ∈ s ∧ x = (Return (), s ∖ {[c]})) ∨
  ((c ∉ s) ∧ x = (Raise (KeyError (missing_key c)), s)).
Proof.
  unfold set_remove. destruct (decide (c ∈ s)) as [Hc|Hc].
  - rewrite list_elem_of_singleton. split; [by left|]. by intros [[_ ->]|[? _]].
  - rewrite list_elem_of_singleton. split; [by right|]. by intros [[? _]|[_ ->]].
Qed.

End set_lemmas.

(** ** Loops *)

Section loop_lemmas.
Context {card St : Type}.

Lemma total_set_comprehension `{Countable A} (n : nat) (m : M card St A) :
  total m → total (set_comprehension n m).
Proof.
  intros Hm. induction n as [|n IH]; simpl.
  - apply total_ret.
  - apply total_bind; [done|]. intros a.
    apply total_bind; [done|]. intros acc. apply total_ret.
Qed.

(** A property kept by every run of the body, whatever its outcome, is kept
    by the loop. *)
Lemma for_in_preserves {A} (P : St → Prop) (body : A → M card St unit) xs :
  (∀ x s r s', P s → (r, s') ∈ body x s → P s') →
  ∀ s r s', P s → (r, s') ∈ for_in xs body s → P s'.
Proof.
  intros Hbody. induction xs as [|x xs IH]; simpl; intros s r s' HP Hin.
  - apply elem_of_ret in Hin. by inversion Hin; subst.
  - apply elem_of_bind in Hin as (r1 & s1 & H1 & Hk).
    pose proof (Hbody _ _ _ _ HP H1) as HP1.
    destruct r1 as [[]|e].
    + by eapply IH.
    + by inversion Hk; subst.
Qed.

(** When the loop returns, every run of its body returned. *)
Lemma for_in_returns_preserves {A} (P : St → Prop) (body : A → M card St unit) xs :
  (∀ x s s', P s → (Return (), s') ∈ body x s → P s') →
  ∀ s s', P s → (Return (), s') ∈ for_in xs body s → P s'.
Proof.
  intros Hbody. induction xs as [|x xs IH]; simpl; intros s s' HP Hin.
  - apply elem_of_ret in Hin. by inversion Hin; subst.
  - apply elem_of_bind in Hin as (r1 & s1 & H1 & Hk).
    destruct r1 as [[]|e]; [|done].
    eapply IH; [|done]. by eapply Hbody.
Qed.

End loop_lemmas.

(** ** Outcomes of the deck's methods *)

Section deck_lemmas.
Context `{Countable card} `{!Truth card}.
Implicit Types (d : Deck card) (c : card) (s : gset card).

Lemma set_white_id d : set_white (white d) d = d.
Proof. by destruct d. Qed.

Lemma set_in_play_id d : set_in_play (in_play d) d = d.
Proof. by destruct d. Qed.

Lemma set_black_id d : set_black (black d) d = d.
Proof. by destruct d. Qed.

Lemma elem_of_on_slot {A} proj upd (m : M card (gset card) A) d x :
  x ∈ on_slot proj upd m d ↔ ∃ r s, (r, s) ∈ m (proj d) ∧ x = (r, upd s d).
Proof.
  unfold on_slot. rewrite list_elem_of_fmap. split.
  - intros [[r s] [-> Hm]]. by exists r, s.
  - intros (r & s & Hm & ->). by exists (r, s).
Qed.

Lemma total_on_slot {A} proj upd (m : M card (gset card) A) :
  total m → total (on_slot proj upd m).
Proof.
  intros Hm d. unfold on_slot. specialize (Hm (proj d)).
  by destruct (m (proj d)).
Qed.

(** [self.slot.pop()] on the deck. *)
Lemma elem_of_pop_slot proj upd d (x : result card card * Deck card) :
  upd (proj d) d = d →
  x ∈ on_slot proj upd set_pop d ↔
  (proj d = ∅ ∧ x = (Raise (KeyError pop_from_an_empty_set), d)) ∨
  (∃ c, c ∈ proj d ∧ x = (Return c, upd (proj d ∖ {[c]}) d)).
Proof.
  intros Hid. rewrite elem_of_on_slot. split.
  - intros (r & s & Hm & ->). apply elem_of_set_pop in Hm as [[He Hx]|(c & Hc & Hx)].
    + left. split; [done|]. inversion Hx; subst. by rewrite <- He, Hid.
    + right. exists c. split; [done|]. by inversion Hx; subst.
  - intros [[He ->]|(c & Hc & ->)].
    + eexists _, _. split; [apply elem_of_set_pop; by left|].
      by rewrite <- He, Hid.
    + eexists _, _. split; [apply elem_of_set_pop; right; by exists c|done].
Qed.

Lemma elem_of_pop_white d (x : result card card * Deck card) :
  x ∈ on_slot white set_white set_pop d ↔
  (white d = ∅ ∧ x = (Raise (KeyError pop_from_an_empty_set), d)) ∨
  (∃ c, c ∈ white d ∧ x = (Return c, set_white (white d ∖ {[c]}) d)).
Proof. apply elem_of_pop_slot, set_white_id. Qed.

Lemma elem_of_pop_black d (x : result card card * Deck card) :
  x ∈ on_slot black set_black set_pop d ↔
  (black d = ∅ ∧ x = (Raise (KeyError pop_from_an_empty_set), d)) ∨
  (∃ c, c ∈ black d ∧ x = (Return c, set_black (black d ∖ {[c]}) d)).
Proof. apply elem_of_pop_slot, set_black_id. Qed.

(** The comprehension of [draw]: [n] pops of the white pool, collected in a
    set.  It returns [n] distinct cards of the pool and leaves the others; it
    raises exactly when the pool runs out, with the pool emptied. *)
Lemma pops_white_inv (n : nat) d r d' :
  (r, d') ∈ set_comprehension n (on_slot white set_white set_pop) d →
  match r with
  | Return acc =>
      size acc = n ∧ acc ⊆ white d ∧ d' = set_white (white d ∖ acc) d
  | Raise e =>
      e = KeyError pop_from_an_empty_set ∧ size (white d) < n ∧
      d' = set_white ∅ d
  end.
Proof.
  revert d r d'. induction n as [|n IH]; simpl; intros d r d' Hin.
  - apply elem_of_ret in Hin. inversion Hin; subst.
    split; [apply size_empty|]. split; [set_solver|].
    by rewrite difference_empty_L, set_white_id.
  - apply elem_of_bind in Hin as (r1 & d1 & H1 & Hk).
    apply elem_of_pop_white in H1 as [[He H1]|(c & Hc & H1)];
      inversion H1; subst; clear H1.
    + inversion Hk; subst. split; [done|]. rewrite He, size_empty.
      split; [lia|]. by rewrite <- He, set_white_id.
    + apply elem_of_bind in Hk as (r2 & d2 & H2 & Hk).
      apply IH in H2. simpl in H2. destruct r2 as [acc|e].
      * destruct H2 as (Hsz & Hsub & ->).
        apply elem_of_ret in Hk. inversion Hk; subst.
        split; [|split].
        -- rewrite size_union by set_solver. by rewrite size_singleton.
        -- set_solver.
        -- unfold set_white; simpl. f_equal. set_solver.
      * destruct H2 as (-> & Hsz & ->). inversion Hk; subst.
        split; [done|]. split; [|done].
        rewrite size_difference in Hsz by set_solver.
        rewrite size_singleton in Hsz.
        assert (size (white d) ≠ 0); [|lia].
        intros Hz. apply size_empty_inv in Hz. set_solver.
Qed.

Lemma draw_inv (n : Z) d r d' :
  (r, d') ∈ draw n d →
  match r with
  | Return drawn =>
      size drawn = Z.to_nat n ∧ drawn ⊆ white d ∧
      d' = set_in_play (in_play d ∪ drawn) (set_white (white d ∖ drawn) d)
  | Raise e =>
      e = KeyError pop_from_an_empty_set ∧ size (white d) < Z.to_nat n ∧
      d' = set_white ∅ d
  end.
Proof.
  unfold draw. intros Hin.
  apply elem_of_bind in Hin as (r1 & d1 & H1 & Hk).
  apply pops_white_inv in H1. destruct r1 as [drawn|e].
  - destruct H1 as (Hsz & Hsub & ->).
    apply elem_of_bind in Hk as (r2 & d2 & H2 & Hk).
    apply elem_of_modify in H2. inversion H2; subst.
    apply elem_of_ret in Hk. by inversion Hk; subst.
  - destruct H1 as (-> & Hsz & ->). by inversion Hk; subst.
Qed.

Lemma total_draw (n : Z) : total (draw (card := card) n).
Proof.
  unfold draw. apply total_bind.
  - apply (total_set_comprehension (A := card)).
    apply total_on_slot, total_set_pop.
  - intros drawn. apply total_bind; [apply total_modify|].
    intros _. apply total_ret.
Qed.

End deck_lemmas.

Section deck_lemmas_new_discard.
Context `{Countable card} `{!Truth card}.
Implicit Types (d : Deck card) (c : card) (s : gset card).

Lemma set_won_id d : set_won (won d) d = d.
Proof. by destruct d. Qed.

Lemma elem_of_new d (x : result card card * Deck card) :
  x ∈ new d ↔
  (black d = ∅ ∧
   x = (Raise (KeyError pop_from_an_empty_set), set_won (won_after_guard d) d)) ∨
  (∃ c, c ∈ black d ∧
   x = (Return c, set_current (Some c)
                    (set_black (black d ∖ {[c]}) (set_won (won_after_guard d) d)))).
Proof.
  assert (Hguard : ∀ y : result card unit * Deck card,
    y ∈ match current d with
        | Some c => if truth c then modify (set_won (won d ∪ {[c]})) else ret ()
        | None => ret ()
        end d ↔ y = (Return (), set_won (won_after_guard d) d)).
  { intros y. unfold won_after_guard. destruct (current d) as [c|].
    - destruct (truth c).
      + apply elem_of_modify.
      + rewrite set_won_id. apply elem_of_ret.
    - rewrite set_won_id. apply elem_of_ret. }
  unfold new. rewrite elem_of_bind. split.
  - intros (r0 & d0 & H0 & Hk). apply elem_of_get in H0. inversion H0; subst.
    apply elem_of_bind in Hk as (r1 & d1 & H1 & Hk).
    apply Hguard in H1. inversion H1; subst.
    apply elem_of_bind in Hk as (r2 & d2 & H2 & Hk).
    apply elem_of_pop_black in H2 as [[He H2]|(c & Hc & H2)];
      inversion H2; subst; clear H2.
    + left. by split.
    + right. exists c. split; [done|].
      apply elem_of_bind in Hk as (r3 & d3 & H3 & Hk).
      apply elem_of_modify in H3. inversion H3; subst.
      apply elem_of_ret in Hk. by subst.
  - intros Hx. exists (Return d), d. split; [by apply elem_of_get|].
    apply elem_of_bind. exists (Return ()), (set_won (won_after_guard d) d).
    split; [by apply Hguard|].
    apply elem_of_bind. destruct Hx as [[He ->]|(c & Hc & ->)].
    + eexists _, _. split; [apply elem_of_pop_black; by left|done].
    + eexists _, _. split; [apply elem_of_pop_black; right; by exists c|].
      apply elem_of_bind. eexists _, _. split; [by apply elem_of_modify|].
      by apply elem_of_ret.
Qed.

Lemma total_new : total (new (card := card)).
Proof.
  intros d Hnil.
  destruct (decide (black d = ∅)) as [He|Hne].
  - assert (Hin : (Raise (KeyError pop_from_an_empty_set),
                   set_won (won_after_guard d) d) ∈ new d).
    { apply elem_of_new. by left. }
    rewrite Hnil in Hin. by apply not_elem_of_nil in Hin.
  - apply set_choose_L in Hne as [c Hc].
    assert (Hin : (Return c, set_current (Some c)
              (set_black (black d ∖ {[c]}) (set_won (won_after_guard d) d)))
            ∈ new d).
    { apply elem_of_new. right. by exists c. }
    rewrite Hnil in Hin. by apply not_elem_of_nil in Hin.
Qed.

Lemma discard_card_eq c d :
  discard_card c d =
  if decide (c ∈ in_play d)
  then [(Return (), set_discarded (discarded d ∪ {[c]})
                      (set_in_play (in_play d ∖ {[c]}) d))]
  else [(Raise (KeyError (not_found_in_play c)), d)].
Proof.
  unfold discard_card, try_except_KeyError, on_slot, set_remove.
  destruct (decide (c ∈ in_play d)); simpl; [done|].
  by rewrite set_in_play_id.
Qed.

Lemma total_discard (cards : list card) : total (discard cards).
Proof.
  unfold discard. induction cards as [|c cs IH]; simpl.
  - apply total_ret.
  - apply total_bind; [|done]. intros d. rewrite discard_card_eq.
    by destruct (decide (c ∈ in_play d)).
Qed.

End deck_lemmas_new_discard.

(** ** Drawing white cards *)

Section draw_properties.
Context `{Countable card} `{!Truth card}.
Implicit Types (d : Deck card) (c : card).

(** C2.  When the white pool holds at least [n] cards ([n] positive),
    [draw(n)] returns, and what it returns is a set of exactly [n] cards, all
    of them in the white pool before the call; after the call they are all in
    play and none of them is in the white pool. *)
Theorem C2_draw_size_contract d (n : Z) :
  (0 < n)%Z → (n ≤ Z.of_nat (size (white d)))%Z →
  draw n d ≠ [] ∧
  ∀ r d', (r, d') ∈ draw n d →
    ∃ drawn, r = Return drawn ∧
      Z.of_nat (size drawn) = n ∧
      drawn ⊆ white d ∧
      drawn ⊆ in_play d' ∧
      drawn ## white d' ∧
      white d' = white d ∖ drawn ∧ in_play d' = in_play d ∪ drawn.
Proof.
  intros Hpos Hle. split; [apply total_draw|].
  intros r d' Hin. apply draw_inv in Hin. destruct r as [drawn|e].
  - destruct Hin as (Hsz & Hsub & ->). exists drawn. simpl.
    repeat split; [lia|done|set_solver|set_solver].
  - destruct Hin as (_ & Hsz & _). lia.
Qed.

(** C8.  When [n] is positive and greater than the number of cards in the
    white pool, [draw(n)] raises the [KeyError] of a pop from an empty set:
    it has an outcome, and no outcome is a return. *)
Theorem C8_draw_beyond_pool_raises d (n : Z) :
  (0 < n)%Z → (Z.of_nat (size (white d)) < n)%Z →
  draw n d ≠ [] ∧
  ∀ r d', (r, d') ∈ draw n d → r = Raise (KeyError pop_from_an_empty_set).
Proof.
  intros Hpos Hlt. split; [apply total_draw|].
  intros r d' Hin. apply draw_inv in Hin. destruct r as [drawn|e].
  - destruct Hin as (Hsz & Hsub & _). apply subseteq_size in Hsub. lia.
  - by destruct Hin as (-> & _).
Qed.

(** C9.  A [draw(n)] that fails is not undone: with [n] greater than the
    number of cards in the white pool, the call raises, the white pool is
    left empty, and the cards in play and discarded are what they were; so a
    card that was in the white pool, in a deck whose white cards were
    partitioned, is in none of the three white sets afterwards. *)
Theorem C9_failed_draw_loses_cards d (n : Z) :
  (Z.of_nat (size (white d)) < n)%Z →
  draw n d ≠ [] ∧
  ∀ r d', (r, d') ∈ draw n d →
    r = Raise (KeyError pop_from_an_empty_set) ∧
    d' = set_white ∅ d ∧
    white d' = ∅ ∧ in_play d' = in_play d ∧ discarded d' = discarded d ∧
    (white_partition d →
     ∀ c, c ∈ white d → c ∉ white d' ∪ in_play d' ∪ discarded d').
Proof.
  intros Hlt. split; [apply total_draw|].
  intros r d' Hin. apply draw_inv in Hin. destruct r as [drawn|e].
  - destruct Hin as (Hsz & Hsub & _). apply subseteq_size in Hsub. lia.
  - destruct Hin as (-> & _ & ->). simpl. repeat split.
    intros (_ & Hwi & Hwd & _) c Hc. set_solver.
Qed.

End draw_properties.

(** ** Discarding *)

Section discard_properties.
Context `{Countable card} `{!Truth card}.
Implicit Types (d : Deck card) (c : card).

(** C7.  [discard(c)] with a single card [c] that is not in play raises the
    [KeyError] that names [c], and the deck is left as it was, slot by
    slot. *)
Theorem C7_discard_not_in_play d c :
  c ∉ in_play d →
  discard [c] d = [(Raise (KeyError (not_found_in_play c)), d)].
Proof.
  intros Hc. unfold discard. simpl. unfold bind.
  rewrite discard_card_eq. by destruct (decide (c ∈ in_play d)).
Qed.

(** A single card that is in play goes from the cards in play to the
    discarded ones. *)
Lemma discard_in_play d c :
  c ∈ in_play d →
  discard [c] d =
  [(Return (), set_discarded (discarded d ∪ {[c]})
                 (set_in_play (in_play d ∖ {[c]}) d))].
Proof.
  intros Hc. unfold discard. simpl. unfold bind.
  rewrite discard_card_eq. by destruct (decide (c ∈ in_play d)).
Qed.

End discard_properties.

(** ** A new black card, and the truth value of the deck *)

Section new_properties.
Context `{Countable card} `{!Truth card}.
Implicit Types (d : Deck card) (c : card).

Lemma truth_gset_false (s : gset card) : truth s = false ↔ s = ∅.
Proof.
  unfold truth, gset_truth. rewrite negb_false_iff. apply bool_decide_eq_true.
Qed.

Lemma truth_gset_true (s : gset card) : truth s = true ↔ s ≠ ∅.
Proof.
  unfold truth, gset_truth. rewrite negb_true_iff. apply bool_decide_eq_false.
Qed.

Lemma truth_Some c : truth (Some c) = truth c.
Proof. done. Qed.

Lemma truth_None : truth (None : option card) = false.
Proof. done. Qed.

(** What [__bool__] computes, for every deck: it is false exactly when the
    black pool is empty and the current slot is false or no card is in
    play. *)
Lemma bool_false_iff d :
  __bool__ d = false ↔
  black d = ∅ ∧ (truth (current d) = false ∨ in_play d = ∅).
Proof.
  unfold __bool__. rewrite orb_false_iff, andb_false_iff.
  by rewrite !truth_gset_false.
Qed.

(** With a current slot that is [None] or a true card, a false slot is an
    absent card. *)
Lemma bool_false_iff_absent d :
  (∀ c, current d = Some c → truth c = true) →
  __bool__ d = false ↔ black d = ∅ ∧ (current d = None ∨ in_play d = ∅).
Proof.
  intros Htrue. rewrite bool_false_iff.
  destruct (current d) as [c|] eqn:E.
  - rewrite truth_Some, (Htrue c eq_refl). naive_solver.
  - rewrite truth_None. naive_solver.
Qed.

(** [new()] on a non-empty black pool, with a current slot that is [None] or
    a true card: it returns; the card that was current is in [won]; the card
    returned comes out of the black pool and is the current one. *)
Lemma new_moves_true_current d :
  black d ≠ ∅ →
  (∀ c, current d = Some c → truth c = true) →
  new d ≠ [] ∧
  ∀ r d', (r, d') ∈ new d →
    ∃ c', r = Return c' ∧ c' ∈ black d ∧
      won d' = won d ∪ current_card d ∧
      black d' = black d ∖ {[c']} ∧
      current d' = Some c'.
Proof.
  intros Hne Htrue. split; [apply total_new|].
  intros r d' Hin. apply elem_of_new in Hin as [[He _]|(c' & Hc' & Hx)]; [done|].
  inversion Hx; subst. exists c'. repeat split; [done|]. simpl.
  unfold won_after_guard, current_card.
  destruct (current d) as [c|] eqn:E.
  - by rewrite (Htrue c eq_refl).
  - set_solver.
Qed.

(** C10.  The current card is tested by its truth value.  With a current card
    [c] that is false, [new()] leaves [won] as it was; when it returns, the
    card returned is the current one and [c], if it was in neither the black
    pool nor [won], is in no black set any more; and [__bool__] takes the
    slot for false, so the deck is true exactly when its black pool is. *)
Theorem C10_current_tested_by_truth d c :
  current d = Some c → truth c = false →
  new d ≠ [] ∧
  (∀ r d', (r, d') ∈ new d →
     won d' = won d ∧
     ∀ c', r = Return c' →
       current d' = Some c' ∧
       (c ∉ black d → c ∉ won d → c ∉ black d' ∪ current_card d' ∪ won d')) ∧
  truth (current d) = false ∧
  __bool__ d = truth (black d).
Proof.
  intros Hcur Hfalse. split; [apply total_new|]. split; [|split].
  - intros r d' Hin.
    assert (Hwon : won_after_guard d = won d).
    { unfold won_after_guard. by rewrite Hcur, Hfalse. }
    apply elem_of_new in Hin as [[He Hx]|(c1 & Hc1 & Hx)];
      inversion Hx; subst; simpl; rewrite Hwon.
    + split; [done|]. by intros c' ?.
    + split; [done|]. intros c' [= <-]. split; [done|].
      intros Hb Hw. unfold current_card. simpl. set_solver.
  - by rewrite Hcur, truth_Some.
  - unfold __bool__. rewrite Hcur, truth_Some, Hfalse. simpl.
    by rewrite orb_false_r.
Qed.

End new_properties.

(** ** Sequences of calls: what they keep *)

(** An equation of sets that needs to know whether an element is in [X]. *)
Ltac set_eq_by_cases X :=
  let x := fresh "x" in
  apply set_eq; intros x; destruct (decide (x ∈ X)); set_solver.

Section sequences.
Context `{Countable card} `{!Truth card}.
Implicit Types (d : Deck card) (c : card) (o : call card).

Lemma elem_of_suppress {A} (m : M card (Deck card) A) d x :
  x ∈ suppress m d ↔ ∃ r d1, (r, d1) ∈ m d ∧ x = (Return (), d1).
Proof.
  unfold suppress. rewrite list_elem_of_fmap. split.
  - intros [[r d1] [-> Hm]]. by exists r, d1.
  - intros (r & d1 & Hm & ->). by exists (r, d1).
Qed.

Lemma discard_card_masters c d r d' :
  (r, d') ∈ discard_card c d → same_masters d d'.
Proof.
  rewrite discard_card_eq. destruct (decide (c ∈ in_play d));
    intros [= -> ->]%list_elem_of_singleton; done.
Qed.

Lemma perform_masters o d r d' :
  (r, d') ∈ perform o d → same_masters d d'.
Proof.
  destruct o as [|n|cards|]; simpl; intros Hin.
  - apply elem_of_modify in Hin. by inversion Hin; subst.
  - apply elem_of_bind in Hin as (r1 & d1 & H1 & Hk).
    apply draw_inv in H1. destruct r1 as [drawn|e].
    + destruct H1 as (_ & _ & ->). apply elem_of_ret in Hk.
      by inversion Hk; subst.
    + destruct H1 as (_ & _ & ->). by inversion Hk; subst.
  - revert Hin. unfold discard.
    apply (for_in_preserves (λ d0, same_masters d d0)); [|done].
    intros c d0 r0 d1 [Hb Hw] [Hb1 Hw1]%discard_card_masters.
    split; congruence.
  - apply elem_of_bind in Hin as (r1 & d1 & H1 & Hk).
    apply elem_of_new in H1 as [[_ H1]|(c & _ & H1)]; inversion H1; subst.
    + by inversion Hk; subst.
    + apply elem_of_ret in Hk. by inversion Hk; subst.
Qed.

Lemma after_calls_masters ops d d' :
  after_calls ops d d' → same_masters d d'.
Proof.
  unfold after_calls.
  apply (for_in_preserves (λ d0, same_masters d d0)); [|done].
  intros o d0 r0 d1 [Hb Hw] (r & d2 & Hin & [= _ ->])%elem_of_suppress.
  apply perform_masters in Hin as [Hb1 Hw1]. split; congruence.
Qed.

Lemma reshuffle_same_masters d d' :
  same_masters d d' → reshuffle d' = reshuffle d.
Proof. intros [Hb Hw]. unfold reshuffle. by rewrite Hb, Hw. Qed.

Lemma reshuffle_init (B W : list card) :
  reshuffle (__init__ B W) = __init__ B W.
Proof. done. Qed.

(** C5.  After any sequence of calls on a deck made by [Deck(B, W)], calls
    that raised included, [reshuffle()] leaves the deck that [Deck(B, W)]
    makes: both pools are the master sets, there is no current card, and the
    won, in-play and discarded sets are empty. *)
Theorem C5_reshuffle_restores_fresh_deck (B W : list card) ops d :
  after_calls ops (__init__ B W) d →
  reshuffle d = __init__ B W ∧
  black (reshuffle d) = list_to_set B ∧
  white (reshuffle d) = list_to_set W ∧
  current (reshuffle d) = None ∧
  won (reshuffle d) = ∅ ∧
  in_play (reshuffle d) = ∅ ∧
  discarded (reshuffle d) = ∅.
Proof.
  intros Hd. apply after_calls_masters, reshuffle_same_masters in Hd.
  rewrite Hd, reshuffle_init. by repeat split.
Qed.

(** *** The white cards are partitioned after calls that returned *)

Lemma discard_card_white_partition c d d' :
  white_partition d → (Return (), d') ∈ discard_card c d → white_partition d'.
Proof.
  intros (Hu & Hwi & Hwd & Hid). rewrite discard_card_eq.
  destruct (decide (c ∈ in_play d)) as [Hc|Hc];
    intros Hin%list_elem_of_singleton; [|done].
  inversion Hin; subst. clear Hin.
  unfold white_partition; simpl. rewrite <- Hu.
  split; [|set_solver]. by set_eq_by_cases ({[c]} : gset card).
Qed.

Lemma perform_white_partition o d d' :
  white_partition d → (Return (), d') ∈ perform o d → white_partition d'.
Proof.
  intros Hinv. destruct o as [|n|cards|]; simpl; intros Hin.
  - apply elem_of_modify in Hin. inversion Hin; subst.
    unfold white_partition; simpl. set_solver.
  - apply elem_of_bind in Hin as (r1 & d1 & H1 & Hk).
    apply draw_inv in H1. destruct r1 as [drawn|e]; [|done].
    destruct H1 as (_ & Hsub & ->). apply elem_of_ret in Hk.
    inversion Hk; subst. destruct Hinv as (Hu & Hwi & Hwd & Hid).
    unfold white_partition; simpl. rewrite <- Hu.
    split; [|set_solver]. by set_eq_by_cases drawn.
  - revert Hin. unfold discard.
    apply (for_in_returns_preserves white_partition); [|done].
    intros c d0 d1. apply discard_card_white_partition.
  - apply elem_of_bind in Hin as (r1 & d1 & H1 & Hk).
    apply elem_of_new in H1 as [[_ H1]|(c & _ & H1)]; inversion H1; subst;
      [done|].
    apply elem_of_ret in Hk. by inversion Hk; subst.
Qed.

Lemma init_white_partition (B W : list card) : white_partition (__init__ B W).
Proof. unfold white_partition; simpl. set_solver. Qed.

Lemma init_black_partition (B W : list card) : black_partition (__init__ B W).
Proof. unfold black_partition, current_card; simpl. set_solver. Qed.

(** The white half of the partition holds for all cards. *)
Lemma white_partition_after_successful (B W : list card) ops d :
  after_successful ops (__init__ B W) d → white_partition d.
Proof.
  unfold after_successful.
  apply (for_in_returns_preserves white_partition).
  - intros o d0 d1. apply perform_white_partition.
  - apply init_white_partition.
Qed.

(** *** The black cards are partitioned when no black card is false *)

Lemma new_black_partition d d' c :
  black_cards_true d → black_partition d →
  (Return c, d') ∈ new d → black_partition d'.
Proof.
  intros Htrue (Hu & Hbc & Hbw & Hcw) Hin.
  apply elem_of_new in Hin as [[_ Hx]|(c' & Hc' & Hx)]; [done|].
  inversion Hx; subst. unfold black_partition, current_card; simpl.
  assert (Hwon : won_after_guard d = won d ∪ current_card d).
  { unfold won_after_guard, current_card.
    destruct (current d) as [c0|] eqn:E; [|set_solver].
    rewrite Htrue; [done|]. rewrite <- Hu. unfold current_card.
    rewrite E. set_solver. }
  rewrite Hwon. rewrite <- Hu.
  split; [|set_solver]. by set_eq_by_cases ({[c']} : gset card).
Qed.

Lemma perform_black_partition o d d' :
  black_cards_true d → black_partition d →
  (Return (), d') ∈ perform o d → black_partition d'.
Proof.
  intros Htrue Hinv. destruct o as [|n|cards|]; simpl; intros Hin.
  - apply elem_of_modify in Hin. inversion Hin; subst.
    unfold black_partition, current_card; simpl. set_solver.
  - apply elem_of_bind in Hin as (r1 & d1 & H1 & Hk).
    apply draw_inv in H1. destruct r1 as [drawn|e]; [|done].
    destruct H1 as (_ & _ & ->). apply elem_of_ret in Hk.
    by inversion Hk; subst.
  - revert Hin. unfold discard.
    apply (for_in_returns_preserves black_partition); [|done].
    intros c d0 d1 Hinv0. rewrite discard_card_eq.
    destruct (decide (c ∈ in_play d0));
      intros Hin%list_elem_of_singleton; [|done].
    by inversion Hin; subst.
  - apply elem_of_bind in Hin as (r1 & d1 & H1 & Hk).
    destruct r1 as [c|e]; [|done].
    apply elem_of_ret in Hk. inversion Hk; subst.
    by eapply new_black_partition.
Qed.

(** With master black cards that are all true, every state reached by calls
    that returned has both partitions. *)
Lemma partitions_after_successful (B W : list card) ops d :
  (∀ c, c ∈ B → truth c = true) →
  after_successful ops (__init__ B W) d →
  black_partition d ∧ white_partition d.
Proof.
  intros HB Hd. split; [|by eapply white_partition_after_successful].
  revert Hd. unfold after_successful.
  assert (Hgoal : ∀ d',
    (Return (), d') ∈ for_in ops perform (__init__ B W) →
    black_cards_true d' ∧ black_partition d'); [|by apply Hgoal].
  intros d'.
  apply (for_in_returns_preserves
           (λ d0, black_cards_true d0 ∧ black_partition d0)).
  - intros o d0 d1 [Ht Hp] Hin. split; [|by eapply perform_black_partition].
    apply perform_masters in Hin as [Hb _]. unfold black_cards_true.
    by rewrite Hb.
  - split; [|apply init_black_partition].
    intros c Hc. apply HB. simpl in Hc. by apply elem_of_list_to_set in Hc.
Qed.

End sequences.

(** ** Iterating the deck *)

Section rounds_properties.
Context `{Countable card} `{!Truth card}.
Implicit Types (d : Deck card) (c : card).

Lemma list_bind_nonempty {A B} (l : list A) (f : A → list B) :
  l ≠ [] → (∀ x, x ∈ l → f x ≠ []) → l ≫= f ≠ [].
Proof.
  destruct l as [|x l]; [done|]. intros _ Hf. simpl.
  specialize (Hf x (list_elem_of_here _ _)).
  destruct (f x); [done|]. done.
Qed.

(** On an empty black pool the body leaves its loop and raises. *)
Lemma generator_next_exhausted generator_stop d :
  black d = ∅ →
  generator_next generator_stop (gen_open, d) =
  [(Raise (raise_StopIteration_in_generator generator_stop), (gen_closed, d))].
Proof.
  intros He. unfold generator_next.
  by rewrite (proj2 (truth_gset_false (black d)) He).
Qed.

(** While the black pool has a card, [next()] gives what [new()] returns,
    which is the new current card, and the generator stays open. *)
Lemma generator_next_yields_new generator_stop d x :
  black d ≠ ∅ →
  x ∈ generator_next generator_stop (gen_open, d) ↔
  ∃ c d1, (Return c, d1) ∈ new d ∧ current d1 = Some c ∧
    x = (Return c, (gen_open, d1)).
Proof.
  intros Hne. unfold generator_next.
  rewrite (proj2 (truth_gset_true (black d)) Hne), list_elem_of_fmap. split.
  - intros [[r d1] [-> Hin]].
    pose proof Hin as Hnew.
    apply elem_of_new in Hin as [[He _]|(c & Hc & Hx)]; [done|].
    inversion Hx; subst. eexists c, _. by repeat split.
  - intros (c & d1 & Hin & _ & ->). by exists (Return c, d1).
Qed.

Lemma generator_next_closed generator_stop d :
  generator_next generator_stop (gen_closed, d) =
  [(Raise StopIteration, (gen_closed, d))].
Proof. done. Qed.

(** A [for] loop over the deck, with more fuel than the black pool has
    cards, is over: it was given every card of the pool once, it left the
    pool empty, and it ended as [raise StopIteration] ends the generator. *)
Lemma for_card_in_runs generator_stop fuel d :
  size (black d) < fuel →
  for_card_in fuel generator_stop gen_open d ≠ [] ∧
  ∀ o, o ∈ for_card_in fuel generator_stop gen_open d →
    ∃ cs d',
      o = Some (cs,
                if generator_stop
                then Some RuntimeError_generator_raised_StopIteration
                else None,
                d') ∧
      length cs = size (black d) ∧ NoDup cs ∧
      list_to_set cs = black d ∧ black d' = ∅.
Proof.
  revert d. induction fuel as [|fuel IH]; intros d Hlt; [lia|].
  cbn [for_card_in]. destruct (decide (black d = ∅)) as [He|Hne].
  - rewrite generator_next_exhausted by done. simpl.
    assert (Hsz : size (black d) = 0) by (by rewrite He, size_empty).
    destruct generator_stop; simpl; (split; [done|]);
      intros o Ho%list_elem_of_singleton; subst o;
      exists [], d; rewrite Hsz, He;
      repeat split; try done; constructor.
  - assert (Hstep : ∀ x, x ∈ generator_next generator_stop (gen_open, d) →
      ∃ c d1, x = (Return c, (gen_open, d1)) ∧ c ∈ black d ∧
        black d1 = black d ∖ {[c]} ∧ size (black d1) < fuel).
    { intros x (c & d1 & Hin & _ & ->)%generator_next_yields_new; [|done].
      apply elem_of_new in Hin as [[He _]|(c' & Hc' & Hx)]; [done|].
      inversion Hx; subst. eexists c', _. repeat split; [done|]. simpl.
      rewrite size_difference by set_solver. rewrite size_singleton.
      assert (size (black d) ≠ 0); [|lia].
      intros Hz%size_empty_inv. set_solver. }
    split.
    + apply list_bind_nonempty.
      * unfold generator_next.
        rewrite (proj2 (truth_gset_true (black d)) Hne).
        pose proof (total_new d) as Hnew.
        by destruct (new d).
      * intros x (c & d1 & -> & _ & _ & Hsz)%Hstep.
        destruct (IH d1 Hsz) as [Hne1 _].
        by destruct (for_card_in fuel generator_stop gen_open d1).
    + intros o ([r [g1 d1]] & Ho & Hx)%list_elem_of_bind.
      apply Hstep in Hx as (c & d2 & [= -> -> ->] & Hc & Hb & Hsz).
      apply list_elem_of_fmap in Ho as (o1 & -> & Ho1).
      destruct (IH d2 Hsz) as [_ Hall].
      destruct (Hall o1 Ho1) as (cs & d' & -> & Hlen & Hnd & Hset & He).
      exists (c :: cs), d'. simpl. repeat split; [| | |done].
      * rewrite Hlen, Hb. rewrite size_difference by set_solver.
        rewrite size_singleton.
        assert (size (black d) ≠ 0); [|lia].
        intros Hz%size_empty_inv. set_solver.
      * constructor; [|done]. intros Hin.
        assert (c ∈ (list_to_set cs : gset card)) as Hin'
          by (by apply elem_of_list_to_set).
        rewrite Hset, Hb in Hin'. set_solver.
      * rewrite Hset, Hb. by set_eq_by_cases ({[c]} : gset card).
Qed.

End rounds_properties.

(** ** Decks of text cards: the scenarios *)

Section text_card_properties.
Open Scope string_scope.

(** Deciding a closed proposition by evaluation. *)
Ltac by_evaluation := apply (bool_decide_unpack _); vm_compute; exact I.

Lemma scenario_round_reached :
  after_successful [AdvanceBlackCard; DrawWhite 2] scenario_deck scenario_round.
Proof. by_evaluation. Qed.

(** C1.  The partition of the black cards is lost with a prompt that is
    false.  From [Deck(["", "Q"], ["A"])], two calls of [new()] that return,
    the first taking the empty prompt, leave a deck whose undrawn, current
    and won cards are "Q" alone: the empty prompt is in the master set and in
    none of the three, so the black cards are not partitioned. *)
Theorem C1_false_prompt_leaves_the_black_partition :
  after_successful [AdvanceBlackCard; AdvanceBlackCard] blank_deck blank_dropped ∧
  black blank_dropped ∪ current_card blank_dropped ∪ won blank_dropped = {["Q"]} ∧
  _black blank_dropped = {[EmptyString; "Q"]} ∧
  ¬ black_partition blank_dropped.
Proof.
  split; [by_evaluation|]. split; [by_evaluation|]. split; [by_evaluation|].
  by_evaluation.
Qed.

(** C3.  [new()] does not move a current card that is false.  In the deck
    reached from [Deck(["", "Q"], ["A"])] by a [new()] that took the empty
    prompt, the black pool holds "Q" and the current card is the empty
    prompt; [new()] has one outcome, it returns "Q", and it leaves [won]
    empty: the card that was current is not in it. *)
Theorem C3_new_drops_a_false_current_card :
  after_successful [AdvanceBlackCard] blank_deck blank_current ∧
  current blank_current = Some EmptyString ∧
  black blank_current = {["Q"]} ∧
  new blank_current = [(Return "Q", blank_dropped)] ∧
  won blank_dropped = ∅.
Proof.
  split; [by_evaluation|]. split; [done|]. split; [done|].
  split; by_evaluation.
Qed.

(** C4.  [__bool__] is false with a current card and a card in play.  In the
    deck reached from [Deck([""], ["A"])] by [new()] and [draw(1)], the black
    pool is empty, the current card is the empty prompt and "A" is in play;
    the deck is false. *)
Theorem C4_bool_false_with_current_card_and_cards_in_play :
  after_successful [AdvanceBlackCard; DrawWhite 1]
    (__init__ [EmptyString] ["A"]) blank_in_play ∧
  black blank_in_play = ∅ ∧
  current blank_in_play = Some EmptyString ∧
  in_play blank_in_play = {["A"]} ∧
  __bool__ blank_in_play = false.
Proof.
  split; [by_evaluation|]. split; [by_evaluation|]. split; [done|].
  split; [done|]. by vm_compute.
Qed.

(** C6.  Under PEP 479 the loop over the deck ends in an exception.  A
    [for] loop over the deck of the scenarios is given the two prompts, in
    either order, and is then ended by the [RuntimeError] that the body's
    [raise StopIteration] has become. *)
Theorem C6_rounds_end_in_RuntimeError :
  fmap (M := list) (fmap (M := option) (λ run, (run.1.1, run.1.2)))
    (for_card_in 3 true (__iter__ scenario_deck) scenario_deck) =
  [Some (["Q1"; "Q2"], Some RuntimeError_generator_raised_StopIteration);
   Some (["Q2"; "Q1"], Some RuntimeError_generator_raised_StopIteration)].
Proof. by vm_compute. Qed.

(** Without PEP 479 the same loop ends normally. *)
Lemma rounds_end_normally_without_generator_stop :
  fmap (M := list) (fmap (M := option) (λ run, (run.1.1, run.1.2)))
    (for_card_in 3 false (__iter__ scenario_deck) scenario_deck) =
  [Some (["Q1"; "Q2"], None); Some (["Q2"; "Q1"], None)].
Proof. by vm_compute. Qed.

(** *** The theorems at the scenarios *)

Lemma C2_draw_size_contract_witness :
  ((0 < 2)%Z ∧ (2 ≤ Z.of_nat (size (white scenario_deck)))%Z) ∧
  draw 2 scenario_deck ≠ [] ∧
  ∀ r d', (r, d') ∈ draw 2 scenario_deck →
    ∃ drawn, r = Return drawn ∧
      Z.of_nat (size drawn) = 2%Z ∧
      drawn ⊆ white scenario_deck ∧
      drawn ⊆ in_play d' ∧
      drawn ## white d' ∧
      white d' = white scenario_deck ∖ drawn ∧
      in_play d' = in_play scenario_deck ∪ drawn.
Proof.
  assert (H1 : (0 < 2)%Z) by lia.
  assert (H2 : (2 ≤ Z.of_nat (size (white scenario_deck)))%Z) by (by vm_compute).
  split; [by split|]. exact (C2_draw_size_contract scenario_deck 2 H1 H2).
Defined.

Lemma C8_draw_beyond_pool_raises_witness :
  ((0 < 4)%Z ∧ (Z.of_nat (size (white scenario_deck)) < 4)%Z) ∧
  draw 4 scenario_deck ≠ [] ∧
  ∀ r d', (r, d') ∈ draw 4 scenario_deck →
    r = Raise (KeyError pop_from_an_empty_set).
Proof.
  assert (H1 : (0 < 4)%Z) by lia.
  assert (H2 : (Z.of_nat (size (white scenario_deck)) < 4)%Z) by (by vm_compute).
  split; [by split|]. exact (C8_draw_beyond_pool_raises scenario_deck 4 H1 H2).
Defined.

Lemma C9_failed_draw_loses_cards_witness :
  (Z.of_nat (size (white scenario_round)) < 2)%Z ∧
  draw 2 scenario_round ≠ [] ∧
  ∀ r d', (r, d') ∈ draw 2 scenario_round →
    r = Raise (KeyError pop_from_an_empty_set) ∧
    d' = set_white ∅ scenario_round ∧
    white d' = ∅ ∧ in_play d' = in_play scenario_round ∧
    discarded d' = discarded scenario_round ∧
    (white_partition scenario_round →
     ∀ c, c ∈ white scenario_round → c ∉ white d' ∪ in_play d' ∪ discarded d').
Proof.
  assert (H1 : (Z.of_nat (size (white scenario_round)) < 2)%Z) by (by vm_compute).
  split; [done|]. exact (C9_failed_draw_loses_cards scenario_round 2 H1).
Defined.

Lemma C7_discard_not_in_play_witness :
  ("A1" ∉ in_play scenario_round) ∧
  discard ["A1"] scenario_round =
  [(Raise (KeyError (not_found_in_play "A1")), scenario_round)].
Proof.
  assert (H1 : "A1" ∉ in_play scenario_round) by by_evaluation.
  split; [done|]. exact (C7_discard_not_in_play scenario_round "A1" H1).
Defined.

Lemma C10_current_tested_by_truth_witness :
  (current blank_current = Some EmptyString ∧ truth EmptyString = false) ∧
  new blank_current ≠ [] ∧
  (∀ r d', (r, d') ∈ new blank_current →
     won d' = won blank_current ∧
     ∀ c', r = Return c' →
       current d' = Some c' ∧
       (EmptyString ∉ black blank_current → EmptyString ∉ won blank_current →
        EmptyString ∉ black d' ∪ current_card d' ∪ won d')) ∧
  truth (current blank_current) = false ∧
  __bool__ blank_current = truth (black blank_current).
Proof.
  assert (H1 : current blank_current = Some EmptyString) by reflexivity.
  assert (H2 : truth EmptyString = false) by reflexivity.
  split; [by split|].
  exact (C10_current_tested_by_truth blank_current EmptyString H1 H2).
Defined.

Lemma C5_reshuffle_restores_fresh_deck_witness :
  after_calls [AdvanceBlackCard; DrawWhite 2; Discard ["A1"]; DrawWhite 2]
    scenario_deck (set_white ∅ scenario_round) ∧
  reshuffle (set_white ∅ scenario_round) = scenario_deck ∧
  black (reshuffle (set_white ∅ scenario_round)) = list_to_set ["Q1"; "Q2"] ∧
  white (reshuffle (set_white ∅ scenario_round)) = list_to_set ["A1"; "A2"; "A3"] ∧
  current (reshuffle (set_white ∅ scenario_round)) = None ∧
  won (reshuffle (set_white ∅ scenario_round)) = ∅ ∧
  in_play (reshuffle (set_white ∅ scenario_round)) = ∅ ∧
  discarded (reshuffle (set_white ∅ scenario_round)) = ∅.
Proof.
  assert (H1 : after_calls
    [AdvanceBlackCard; DrawWhite 2; Discard ["A1"]; DrawWhite 2]
    scenario_deck (set_white ∅ scenario_round)) by by_evaluation.
  split; [done|].
  exact (C5_reshuffle_restores_fresh_deck ["Q1"; "Q2"] ["A1"; "A2"; "A3"]
           _ _ H1).
Defined.

End text_card_properties.

(** ** Discarding several cards *)

Section discard_several.
Context `{Countable card} `{!Truth card}.
Implicit Types (d : Deck card) (c : card) (cards : list card).

Lemma move_to_discarded_empty d : move_to_discarded ∅ d = d.
Proof.
  unfold move_to_discarded. destruct d; unfold set_discarded, set_in_play; simpl.
  by rewrite union_empty_r_L, difference_empty_L.
Qed.

Lemma move_to_discarded_cons c cards d :
  move_to_discarded (list_to_set cards) (move_to_discarded {[c]} d) =
  move_to_discarded (list_to_set (c :: cards)) d.
Proof.
  unfold move_to_discarded, set_discarded, set_in_play; simpl.
  f_equal; set_solver.
Qed.

Lemma discard_cons_in_play c cards d :
  c ∈ in_play d →
  discard (c :: cards) d = discard cards (move_to_discarded {[c]} d).
Proof.
  intros Hc. unfold discard. simpl. unfold bind at 1.
  rewrite discard_card_eq. destruct (decide (c ∈ in_play d)); [|done].
  simpl. by rewrite app_nil_r.
Qed.

Lemma discard_cons_not_in_play c cards d :
  c ∉ in_play d →
  discard (c :: cards) d = [(Raise (KeyError (not_found_in_play c)), d)].
Proof.
  intros Hc. unfold discard. simpl. unfold bind at 1.
  rewrite discard_card_eq. by destruct (decide (c ∈ in_play d)).
Qed.

(** Cards that are all in play, none of them twice, are all discarded. *)
Lemma discard_all_in_play cards d :
  NoDup cards → (∀ c, c ∈ cards → c ∈ in_play d) →
  discard cards d = [(Return (), move_to_discarded (list_to_set cards) d)].
Proof.
  revert d. induction cards as [|c cards IH]; intros d Hnd Hin.
  - by rewrite move_to_discarded_empty.
  - apply NoDup_cons in Hnd as [Hc Hnd].
    rewrite discard_cons_in_play by (apply Hin; by left).
    rewrite IH; [by rewrite move_to_discarded_cons|done|].
    intros c' Hc'. unfold move_to_discarded; simpl.
    apply elem_of_difference. split; [apply Hin; by right|].
    by intros ->%elem_of_singleton.
Qed.

(** X1.  [discard] of the cards [cards] returns exactly when the cards are all in play
    and no card is given twice; the deck it leaves has these cards out of
    play and discarded, and nothing else changed. *)
Theorem discard_returns_iff cards d d' :
  (Return (), d') ∈ discard cards d ↔
  NoDup cards ∧ (∀ c, c ∈ cards → c ∈ in_play d) ∧
  d' = move_to_discarded (list_to_set cards) d.
Proof.
  revert d. induction cards as [|c cards IH]; intros d.
  - unfold discard. simpl. rewrite elem_of_ret, move_to_discarded_empty.
    split.
    + intros [= ->]. split; [constructor|]. split; [|done].
      by intros c ?%not_elem_of_nil.
    + by intros (_ & _ & ->).
  - destruct (decide (c ∈ in_play d)) as [Hc|Hc].
    + rewrite discard_cons_in_play by done. rewrite IH.
      rewrite move_to_discarded_cons, NoDup_cons.
      unfold move_to_discarded at 1; simpl. split.
      * intros (Hnd & Hin & ->). split; [|split; [|done]].
        -- split; [|done]. intros Hcc. apply Hin in Hcc. set_solver.
        -- intros c' [->|Hc']%elem_of_cons; [done|].
           apply Hin in Hc'. set_solver.
      * intros ([Hcc Hnd] & Hin & ->). split; [done|]. split; [|done].
        intros c' Hc'. apply elem_of_difference. split.
        -- apply Hin. by right.
        -- intros ->%elem_of_singleton. done.
    + rewrite discard_cons_not_in_play by done.
      rewrite list_elem_of_singleton. split; [done|].
      intros (_ & Hin & _). destruct Hc. apply Hin. by left.
Qed.

(** X2.  [discard] of the cards [cards] applies its cards one by one and is not undone
    when it raises: with cards [pre], all in play and distinct, followed by a
    card [c] that is not in play or is one of [pre], the call raises the
    [KeyError] that names [c], the cards [pre] have been discarded and the
    cards after [c] have not been looked at. *)
Theorem discard_stops_at_first_card_not_in_play pre c post d :
  NoDup pre → (∀ p, p ∈ pre → p ∈ in_play d) →
  c ∉ in_play d ∨ c ∈ pre →
  discard (pre ++ c :: post) d =
  [(Raise (KeyError (not_found_in_play c)),
    move_to_discarded (list_to_set pre) d)].
Proof.
  revert d. induction pre as [|p pre IH]; intros d Hnd Hin Hc; simpl.
  - destruct Hc as [Hc|Hc]; [|by apply not_elem_of_nil in Hc].
    rewrite discard_cons_not_in_play by done.
    by rewrite move_to_discarded_empty.
  - apply NoDup_cons in Hnd as [Hp Hnd].
    rewrite discard_cons_in_play by (apply Hin; by left).
    rewrite IH; [by rewrite move_to_discarded_cons|done| |].
    + intros p' Hp'. unfold move_to_discarded; simpl.
      apply elem_of_difference. split; [apply Hin; by right|].
      by intros ->%elem_of_singleton.
    + unfold move_to_discarded; simpl.
      destruct Hc as [Hc|[->|Hc]%elem_of_cons]; [left|left|by right];
        set_solver.
Qed.

(** X3.  Whatever [discard] of the cards [cards] does, returning or raising, no white
    card is lost: the white pool is not touched, the cards in play and the
    discarded ones are together what they were, a partition of the white
    cards stays one, and the black slots are not touched. *)
Theorem discard_keeps_white_cards cards d r d' :
  (r, d') ∈ discard cards d →
  white d' = white d ∧
  in_play d' ∪ discarded d' = in_play d ∪ discarded d ∧
  (white_partition d → white_partition d') ∧
  black d' = black d ∧ current d' = current d ∧ won d' = won d.
Proof.
  unfold discard.
  apply (for_in_preserves (λ d0,
    white d0 = white d ∧
    in_play d0 ∪ discarded d0 = in_play d ∪ discarded d ∧
    (white_partition d → white_partition d0) ∧
    black d0 = black d ∧ current d0 = current d ∧ won d0 = won d));
    [|done].
  intros c d0 r0 d1 (Hw & Hu & Hp & Hb & Hcur & Hwon). rewrite discard_card_eq.
  destruct (decide (c ∈ in_play d0)) as [Hc|Hc];
    intros [= -> ->]%list_elem_of_singleton; [|done].
  simpl. split; [done|]. split; [|split; [|done]].
  - rewrite <- Hu. by set_eq_by_cases ({[c]} : gset card).
  - intros Hd. apply Hp in Hd.
    apply (discard_card_white_partition c d0); [done|].
    rewrite discard_card_eq. destruct (decide (c ∈ in_play d0)); [|done].
    by apply list_elem_of_singleton.
Qed.

End discard_several.

(** ** Edges of [draw] and [new], and what each method leaves alone *)

Section edges_and_frames.
Context `{Countable card} `{!Truth card}.
Implicit Types (d : Deck card) (c : card).

(** X4.  [draw(n)] with [n] zero or negative pops nothing: it returns the
    empty set and the deck is what it was. *)
Theorem draw_of_no_card (n : Z) d :
  (n ≤ 0)%Z → draw n d = [(Return ∅, d)].
Proof.
  intros Hn. unfold draw. replace (Z.to_nat n) with 0 by lia. simpl.
  unfold bind, ret, modify; simpl.
  by rewrite union_empty_r_L, set_in_play_id.
Qed.

(** X5.  [new()] on an empty black pool raises the [KeyError] of the pop and
    is not undone: the guard has already run.  The current card stays
    current and, when it is true, it is in [won] as well, so the black cards
    are no longer partitioned. *)
Theorem new_on_empty_pool d :
  black d = ∅ →
  new d ≠ [] ∧
  ∀ r d', (r, d') ∈ new d →
    r = Raise (KeyError pop_from_an_empty_set) ∧
    d' = set_won (won_after_guard d) d ∧
    current d' = current d ∧
    ∀ c, current d = Some c → truth c = true →
      c ∈ won d' ∧ ¬ black_partition d'.
Proof.
  intros He. split; [apply total_new|].
  intros r d' [[_ Hx]|(c & Hc & _)]%elem_of_new; [|set_solver].
  inversion Hx; subst. split; [done|]. split; [done|]. split; [done|].
  intros c Hcur Htrue.
  assert (Hwon : c ∈ won_after_guard d).
  { unfold won_after_guard. rewrite Hcur, Htrue. set_solver. }
  split; [done|].
  intros (_ & _ & _ & Hcw). unfold current_card in Hcw. simpl in Hcw.
  rewrite Hcur in Hcw. set_solver.
Qed.

Lemma new_leaves_white_frame d r d' :
  (r, d') ∈ new d →
  white d' = white d ∧ in_play d' = in_play d ∧
  discarded d' = discarded d ∧ same_masters d d'.
Proof.
  intros [[_ Hx]|(c & _ & Hx)]%elem_of_new; by inversion Hx; subst.
Qed.

(** X6.  [new()] never touches the white cards: whatever it does, the white
    pool, the cards in play, the discarded cards and the master sets are
    what they were. *)
Theorem new_leaves_white_cards d r d' :
  (r, d') ∈ new d →
  white d' = white d ∧ in_play d' = in_play d ∧
  discarded d' = discarded d ∧ same_masters d d'.
Proof.
  apply new_leaves_white_frame.
Qed.

(** X7.  [draw(n)] never touches the black cards nor the discarded ones:
    whatever it does, the black pool, the current card, [won], the discarded
    cards and the master sets are what they were. *)
Theorem draw_leaves_black_cards (n : Z) d r d' :
  (r, d') ∈ draw n d →
  black d' = black d ∧ current d' = current d ∧ won d' = won d ∧
  discarded d' = discarded d ∧ same_masters d d'.
Proof.
  intros Hin%draw_inv. destruct r as [drawn|e].
  - by destruct Hin as (_ & _ & ->).
  - by destruct Hin as (_ & _ & ->).
Qed.

(** X11.  The cards that [draw(n)] returned can be discarded, once: given in
    any order, [discard] returns, and then they are out of the white pool,
    not in play and discarded. *)
Theorem drawn_cards_can_be_discarded (n : Z) d drawn d1 (cards : list card) :
  (Return drawn, d1) ∈ draw n d →
  NoDup cards → list_to_set cards = drawn →
  discard cards d1 =
  [(Return (),
    set_discarded (discarded d ∪ drawn)
      (set_in_play (in_play d ∖ drawn) (set_white (white d ∖ drawn) d)))].
Proof.
  intros Hin%draw_inv Hnd Hset. destruct Hin as (_ & _ & ->).
  rewrite discard_all_in_play; [|done|].
  - do 2 f_equal. rewrite Hset.
    unfold move_to_discarded, set_discarded, set_in_play, set_white; simpl.
    f_equal; set_solver.
  - intros c Hc. simpl. apply elem_of_union_r. rewrite <- Hset.
    by apply elem_of_list_to_set.
Qed.

End edges_and_frames.

(** ** More on sequences of calls and on the loop over the deck *)

Section more_sequences.
Context `{Countable card} `{!Truth card}.
Implicit Types (d : Deck card) (c : card) (o : call card).

Lemma after_successful_masters ops d d' :
  after_successful ops d d' → same_masters d d'.
Proof.
  unfold after_successful.
  apply (for_in_preserves (λ d0, same_masters d d0)); [|done].
  intros o d0 r0 d1 [Hb Hw] [Hb1 Hw1]%perform_masters. split; congruence.
Qed.

Lemma after_successful_cons o ops d d' :
  after_successful (o :: ops) d d' ↔
  ∃ d1, (Return (), d1) ∈ perform o d ∧ after_successful ops d1 d'.
Proof.
  unfold after_successful. simpl. rewrite elem_of_bind. split.
  - intros (r1 & d1 & H1 & Hk). destruct r1 as [[]|e]; [|done]. by exists d1.
  - intros (d1 & H1 & Hk). by exists (Return ()), d1.
Qed.

(** X8.  In every state reached from [Deck(B, W)] by calls that returned,
    whatever the cards are, the white cards are partitioned, and the white
    pool, the cards in play and the discarded ones count together as many
    cards as there are distinct cards in [W]. *)
Theorem white_cards_all_accounted_for (B W : list card) ops d :
  after_successful ops (__init__ B W) d →
  white_partition d ∧
  size (white d) + size (in_play d) + size (discarded d) =
  size (list_to_set W : gset card).
Proof.
  intros Hd. pose proof (white_partition_after_successful _ _ _ _ Hd) as Hp.
  split; [done|]. destruct Hp as (Hu & Hwi & Hwd & Hid).
  apply after_successful_masters in Hd as [_ Hw]. simpl in Hw.
  rewrite <- Hw, <- Hu.
  rewrite (size_union (white d ∪ in_play d)) by set_solver.
  by rewrite size_union.
Qed.

(** X9.  A reshuffle repairs the deck.  After any calls on [Deck(B, W)],
    calls that raised and lost cards included, [reshuffle()] followed by
    calls that return reaches only decks whose black and white cards are
    partitioned, when no card of [B] is false. *)
Theorem reshuffle_recovers_the_partitions (B W : list card) ops1 ops2 d d' :
  (∀ c, c ∈ B → truth c = true) →
  after_calls ops1 (__init__ B W) d →
  after_successful ops2 (reshuffle d) d' →
  black_partition d' ∧ white_partition d'.
Proof.
  intros HB Hd Hd'.
  apply after_calls_masters, reshuffle_same_masters in Hd.
  rewrite Hd, reshuffle_init in Hd'.
  by eapply partitions_after_successful.
Qed.

Lemma new_returns_takes_one_card d d1 :
  (Return (), d1) ∈ perform AdvanceBlackCard d →
  size (black d1) + 1 = size (black d).
Proof.
  simpl. intros (r & d2 & Hnew & Hk)%elem_of_bind.
  apply elem_of_new in Hnew as [[_ Hx]|(c & Hc & Hx)]; inversion Hx; subst;
    [done|].
  apply elem_of_ret in Hk. inversion Hk; subst. simpl.
  rewrite size_difference by set_solver. rewrite size_singleton.
  assert (size (black d) ≠ 0); [|lia].
  intros Hz%size_empty_inv. set_solver.
Qed.

(** X12.  [new()] returns as many times in a row as the black pool has
    cards, and no more: [k] calls of [new()] can all return exactly when [k]
    is at most the size of the pool, and they then leave [k] cards fewer in
    it. *)
Theorem new_returns_at_most_pool_size (k : nat) d :
  ((∃ d', after_successful (replicate k AdvanceBlackCard) d d') ↔
   k ≤ size (black d)) ∧
  ∀ d', after_successful (replicate k AdvanceBlackCard) d d' →
    size (black d') + k = size (black d).
Proof.
  assert (Hsize : ∀ k d d',
    after_successful (replicate k AdvanceBlackCard) d d' →
    size (black d') + k = size (black d)).
  { clear k d. induction k as [|k IH]; intros d d'; simpl.
    - unfold after_successful; simpl. intros [= ->]%elem_of_ret. lia.
    - intros (d1 & H1 & Hk)%after_successful_cons.
      apply IH in Hk. apply new_returns_takes_one_card in H1. lia. }
  split; [|apply Hsize]. split.
  - intros [d' Hd']. apply Hsize in Hd'. lia.
  - revert d. induction k as [|k IH]; intros d Hk; simpl.
    + exists d. unfold after_successful; simpl. by apply elem_of_ret.
    + destruct (decide (black d = ∅)) as [He|Hne].
      { rewrite He, size_empty in Hk. lia. }
      apply set_choose_L in Hne as [c Hc].
      set (d1 := set_current (Some c)
                   (set_black (black d ∖ {[c]})
                      (set_won (won_after_guard d) d))).
      assert (H1 : (Return (), d1) ∈ perform AdvanceBlackCard d).
      { simpl. apply elem_of_bind. exists (Return c), d1. split.
        - apply elem_of_new. right. by exists c.
        - by apply elem_of_ret. }
      destruct (IH d1) as [d' Hd'].
      { apply new_returns_takes_one_card in H1. lia. }
      exists d'. apply after_successful_cons. by exists d1.
Qed.

(** X13.  A loop over the deck keeps the black cards partitioned and does
    not touch the white cards.  From a partitioned deck with no false black
    card, a loop that is over leaves the black pool empty, the last card it
    was given current (the card that was current, if it was given none), and
    every other black card in [won]. *)
Theorem rounds_keep_black_partition generator_stop fuel d cs e d' :
  black_cards_true d → black_partition d →
  Some (cs, e, d') ∈ for_card_in fuel generator_stop gen_open d →
  black_partition d' ∧
  black d' = ∅ ∧
  current d' = (match last cs with Some c => Some c | None => current d end) ∧
  won d' = _black d ∖ current_card d' ∧
  white d' = white d ∧ in_play d' = in_play d ∧ discarded d' = discarded d.
Proof.
  revert d cs e d'. induction fuel as [|fuel IH]; intros d cs e d' Ht Hp Hin.
  { by apply list_elem_of_singleton in Hin. }
  cbn [for_card_in] in Hin. destruct (decide (black d = ∅)) as [He|Hne].
  - rewrite generator_next_exhausted in Hin by done.
    assert (cs = [] ∧ d' = d) as [-> ->].
    { destruct generator_stop; simpl in Hin;
        apply list_elem_of_singleton in Hin; by inversion Hin. }
    split; [done|]. split; [done|]. split; [done|]. split; [|done].
    destruct Hp as (Hu & Hbc & Hbw & Hcw). rewrite <- Hu, He. set_solver.
  - apply list_elem_of_bind in Hin as ([r [g1 d1]] & Hin & Hx).
    apply generator_next_yields_new in Hx as (c & d2 & Hnew & Hcur & Heq);
      [|done].
    inversion Heq; subst; clear Heq.
    apply list_elem_of_fmap in Hin as ([[[cs1 e1] d1']|] & Heq & Hin);
      [|done].
    inversion Heq; subst; clear Heq.
    pose proof (new_black_partition _ _ _ Ht Hp Hnew) as Hp2.
    pose proof (new_leaves_white_frame _ _ _ Hnew) as (Hw & Hi & Hd & Hb & _).
    assert (Ht2 : black_cards_true d2).
    { unfold black_cards_true. by rewrite Hb. }
    destruct (IH _ _ _ _ Ht2 Hp2 Hin)
      as (Hp' & He' & Hcur' & Hwon' & Hw' & Hi' & Hd').
    split; [done|]. split; [done|]. split; [|split].
    + rewrite Hcur', Hcur, last_cons. by destruct (last cs1).
    + by rewrite Hwon', Hb.
    + by rewrite Hw', Hi', Hd'.
Qed.

(** X10.  A [for] loop over the deck, with more fuel than the black pool
    has cards, is over; it was given every card of the pool exactly once and
    left the pool empty, and it ended normally without PEP 479 and by the
    [RuntimeError] with it. *)
Theorem rounds_give_each_black_card_once generator_stop fuel d :
  size (black d) < fuel →
  for_card_in fuel generator_stop (__iter__ d) d ≠ [] ∧
  ∀ run, run ∈ for_card_in fuel generator_stop (__iter__ d) d →
    ∃ cs d',
      run = Some (cs,
                if generator_stop
                then Some RuntimeError_generator_raised_StopIteration
                else None,
                d') ∧
      length cs = size (black d) ∧ NoDup cs ∧
      list_to_set cs = black d ∧ black d' = ∅.
Proof. apply for_card_in_runs. Qed.

End more_sequences.

(** ** The further properties at the scenarios *)

Section text_card_witnesses.
Open Scope string_scope.

Ltac by_evaluation := apply (bool_decide_unpack _); vm_compute; exact I.

Lemma discard_stops_at_first_card_not_in_play_witness :
  discard (["A2"] ++ "A1" :: ["A3"]) scenario_round =
  [(Raise (KeyError (not_found_in_play "A1")),
    move_to_discarded (list_to_set ["A2"]) scenario_round)].
Proof.
  assert (H1 : NoDup ["A2"]) by by_evaluation.
  assert (H2 : ∀ p, p ∈ ["A2"] → p ∈ in_play scenario_round).
  { apply Forall_forall. by_evaluation. }
  assert (H3 : "A1" ∉ in_play scenario_round ∨ "A1" ∈ ["A2"]).
  { left. by_evaluation. }
  exact (discard_stops_at_first_card_not_in_play
           ["A2"] "A1" ["A3"] scenario_round H1 H2 H3).
Defined.

Lemma discard_keeps_white_cards_witness :
  white (move_to_discarded {["A2"]} scenario_round) = white scenario_round ∧
  in_play (move_to_discarded {["A2"]} scenario_round) ∪
    discarded (move_to_discarded {["A2"]} scenario_round) =
  in_play scenario_round ∪ discarded scenario_round ∧
  (white_partition scenario_round →
   white_partition (move_to_discarded {["A2"]} scenario_round)) ∧
  black (move_to_discarded {["A2"]} scenario_round) = black scenario_round ∧
  current (move_to_discarded {["A2"]} scenario_round) = current scenario_round ∧
  won (move_to_discarded {["A2"]} scenario_round) = won scenario_round.
Proof.
  assert (H1 : (Raise (KeyError (not_found_in_play "A1")),
                move_to_discarded {["A2"]} scenario_round)
               ∈ discard ["A2"; "A1"] scenario_round) by by_evaluation.
  exact (discard_keeps_white_cards _ _ _ _ H1).
Defined.

Lemma draw_of_no_card_witness :
  draw (-1) scenario_round = [(Return ∅, scenario_round)].
Proof.
  assert (H1 : (-1 ≤ 0)%Z) by lia.
  exact (draw_of_no_card (-1) scenario_round H1).
Defined.

Lemma new_on_empty_pool_witness :
  new (set_current (Some "Q2") (set_black ∅ scenario_deck)) ≠ [] ∧
  ∀ r d',
    (r, d') ∈ new (set_current (Some "Q2") (set_black ∅ scenario_deck)) →
    r = Raise (KeyError pop_from_an_empty_set) ∧
    d' = set_won
           (won_after_guard (set_current (Some "Q2") (set_black ∅ scenario_deck)))
           (set_current (Some "Q2") (set_black ∅ scenario_deck)) ∧
    current d' = current (set_current (Some "Q2") (set_black ∅ scenario_deck)) ∧
    ∀ c, current (set_current (Some "Q2") (set_black ∅ scenario_deck)) = Some c →
      truth c = true → c ∈ won d' ∧ ¬ black_partition d'.
Proof.
  assert (H1 : black (set_current (Some "Q2") (set_black ∅ scenario_deck)) = ∅)
    by reflexivity.
  exact (new_on_empty_pool _ H1).
Defined.

Lemma new_leaves_white_cards_witness :
  white (set_current (Some "Q1") (set_black {["Q2"]} scenario_deck)) =
    white scenario_deck ∧
  in_play (set_current (Some "Q1") (set_black {["Q2"]} scenario_deck)) =
    in_play scenario_deck ∧
  discarded (set_current (Some "Q1") (set_black {["Q2"]} scenario_deck)) =
    discarded scenario_deck ∧
  same_masters scenario_deck
    (set_current (Some "Q1") (set_black {["Q2"]} scenario_deck)).
Proof.
  assert (H1 : (Return "Q1",
                set_current (Some "Q1") (set_black {["Q2"]} scenario_deck))
               ∈ new scenario_deck) by by_evaluation.
  exact (new_leaves_white_cards _ _ _ H1).
Defined.

Lemma draw_leaves_black_cards_witness :
  black (set_white ∅ scenario_deck) = black scenario_deck ∧
  current (set_white ∅ scenario_deck) = current scenario_deck ∧
  won (set_white ∅ scenario_deck) = won scenario_deck ∧
  discarded (set_white ∅ scenario_deck) = discarded scenario_deck ∧
  same_masters scenario_deck (set_white ∅ scenario_deck).
Proof.
  assert (H1 : (Raise (KeyError pop_from_an_empty_set),
                set_white ∅ scenario_deck)
               ∈ draw 4 scenario_deck) by by_evaluation.
  exact (draw_leaves_black_cards _ _ _ _ H1).
Defined.

Lemma drawn_cards_can_be_discarded_witness :
  discard ["A3"; "A2"]
    (set_in_play {["A2"; "A3"]} (set_white {["A1"]} scenario_deck)) =
  [(Return (),
    set_discarded (discarded scenario_deck ∪ {["A2"; "A3"]})
      (set_in_play (in_play scenario_deck ∖ {["A2"; "A3"]})
         (set_white (white scenario_deck ∖ {["A2"; "A3"]}) scenario_deck)))].
Proof.
  assert (H1 : (Return {["A2"; "A3"]},
                set_in_play {["A2"; "A3"]} (set_white {["A1"]} scenario_deck))
               ∈ draw 2 scenario_deck) by by_evaluation.
  assert (H2 : NoDup ["A3"; "A2"]) by by_evaluation.
  assert (H3 : list_to_set ["A3"; "A2"] = ({["A2"; "A3"]} : gset string))
    by by_evaluation.
  exact (drawn_cards_can_be_discarded 2 scenario_deck _ _ _ H1 H2 H3).
Defined.

Lemma white_cards_all_accounted_for_witness :
  white_partition scenario_round ∧
  size (white scenario_round) + size (in_play scenario_round) +
    size (discarded scenario_round) =
  size (list_to_set ["A1"; "A2"; "A3"] : gset string).
Proof.
  assert (H1 : after_successful [AdvanceBlackCard; DrawWhite 2]
                 (__init__ ["Q1"; "Q2"] ["A1"; "A2"; "A3"]) scenario_round)
    by by_evaluation.
  exact (white_cards_all_accounted_for _ _ _ _ H1).
Defined.

Lemma reshuffle_recovers_the_partitions_witness :
  black_partition scenario_round ∧ white_partition scenario_round.
Proof.
  assert (H1 : ∀ c, c ∈ ["Q1"; "Q2"] → truth c = true).
  { apply Forall_forall. by_evaluation. }
  assert (H2 : after_calls [DrawWhite 4]
                 (__init__ ["Q1"; "Q2"] ["A1"; "A2"; "A3"])
                 (set_white ∅ scenario_deck)) by by_evaluation.
  assert (H3 : after_successful [AdvanceBlackCard; DrawWhite 2]
                 (reshuffle (set_white ∅ scenario_deck)) scenario_round)
    by by_evaluation.
  exact (reshuffle_recovers_the_partitions _ _ _ _ _ _ H1 H2 H3).
Defined.

Lemma rounds_give_each_black_card_once_witness :
  for_card_in 3 true (__iter__ scenario_deck) scenario_deck ≠ [] ∧
  ∀ o, o ∈ for_card_in 3 true (__iter__ scenario_deck) scenario_deck →
    ∃ cs d',
      o = Some (cs, Some RuntimeError_generator_raised_StopIteration, d') ∧
      length cs = size (black scenario_deck) ∧ NoDup cs ∧
      list_to_set cs = black scenario_deck ∧ black d' = ∅.
Proof.
  assert (H1 : size (black scenario_deck) < 3) by (vm_compute; lia).
  exact (rounds_give_each_black_card_once true 3 scenario_deck H1).
Defined.

Lemma rounds_keep_black_partition_witness :
  black_partition
    (set_won {["Q1"]} (set_current (Some "Q2") (set_black ∅ scenario_deck))) ∧
  won (set_won {["Q1"]} (set_current (Some "Q2") (set_black ∅ scenario_deck))) =
  {["Q1"]}.
Proof.
  assert (H1 : black_cards_true scenario_deck).
  { change (set_Forall (λ c, truth c = true) (_black scenario_deck)).
    by_evaluation. }
  assert (H2 : black_partition scenario_deck) by by_evaluation.
  assert (H3 : Some (["Q1"; "Q2"], None,
                 set_won {["Q1"]}
                   (set_current (Some "Q2") (set_black ∅ scenario_deck)))
               ∈ for_card_in 3 false gen_open scenario_deck) by by_evaluation.
  destruct (rounds_keep_black_partition false 3 scenario_deck _ _ _ H1 H2 H3)
    as (Hp & _ & _ & Hwon & _).
  split; [exact Hp|reflexivity].
Defined.

End text_card_witnesses.

End structures.
